(** * Collective performance-table generator: the command-line driver

    A shallow embedding of [xla/tools/collective_perf_table_gen_main.cc]:
    the option-string parsers ([ExtractKV], [ParseStepSpec],
    [ParseCollectives], [GetCollectiveDeviceList],
    [GetCollectiveDeviceLists]) and the part of [main] that assembles the
    [Config] handed to the profiling engine.

    A failed [CHECK] / [LOG(FATAL)] aborts the process; it is modelled by
    the [Fatal] outcome of the [result] type. *)

From Stdlib Require Import String Ascii List ZArith Lia Bool.
Import ListNotations.

Local Open Scope Z_scope.
Local Open Scope list_scope.
Local Open Scope string_scope.

(** ** Aborting computations *)

Inductive result (A : Type) : Type :=
| Ok (a : A)
| Fatal.

Arguments Ok {A} a.
Arguments Fatal {A}.

Definition bind {A B : Type} (r : result A) (k : A -> result B) : result B :=
  match r with
  | Ok a => k a
  | Fatal => Fatal
  end.

Notation "x <- r ;; k" := (bind r (fun x => k))
  (at level 61, r at next level, right associativity).

Definition CHECK (b : bool) : result unit :=
  if b then Ok tt else Fatal.

(** ** The string operations the driver uses *)

(** [std::string::find_first_of(char)]: position of the first occurrence,
    [None] standing for [npos]. *)
Fixpoint find_first_of (s : string) (c : ascii) : option nat :=
  match s with
  | EmptyString => None
  | String a rest =>
      if Ascii.eqb a c then Some O
      else option_map S (find_first_of rest c)
  end.

(** [s.substr(pos, count)]. *)
Definition substr (s : string) (pos count : nat) : string :=
  String.substring pos count s.

(** [s.substr(pos)]: everything from [pos] to the end. *)
Fixpoint substr_from (s : string) (pos : nat) {struct pos} : string :=
  match pos, s with
  | O, _ => s
  | S p, EmptyString => EmptyString
  | S p, String _ rest => substr_from rest p
  end.

(** [absl::StrSplit(text, delim)] with a single-character delimiter and no
    predicate: every piece between delimiters is returned, empty pieces
    included, and the empty text gives the single empty piece. *)
Fixpoint StrSplit (text : string) (delim : ascii) : list string :=
  match text with
  | EmptyString => [EmptyString]
  | String c rest =>
      if Ascii.eqb c delim then EmptyString :: StrSplit rest delim
      else match StrSplit rest delim with
           | [] => [String c EmptyString]
           | piece :: pieces => String c piece :: pieces
           end
  end.

(** ** What the driver takes from the rest of the code base

    The driver calls into Abseil, the HLO parser and the table generator.
    None of their bodies belongs to this file, so they are the fields of an
    interface the driver is parameterised by:

    - [SimpleAtoi value] is [absl::SimpleAtoi(value, &field)] at the integer
      type of the [StepSpec] fields: [Some n] when it returns [true] and
      stores [n], [None] when it returns [false];
    - [ParseCollectiveDeviceListOnly] is [xla::ParseCollectiveDeviceListOnly],
      [None] standing for a non-OK status;
    - [iota_replica_group_list] is the accessor of [CollectiveDeviceList]
      returning [std::optional<IotaReplicaGroupList>];
    - [StepSpec_start0] and [StepSpec_stop0] are the member initialisers of
      [start] and [stop] in the declaration of [StepSpec]. *)

Class External : Type := {
  SimpleAtoi : string -> option Z;
  CollectiveDeviceList : Type;
  IotaReplicaGroupList : Type;
  ParseCollectiveDeviceListOnly : string -> option CollectiveDeviceList;
  iota_replica_group_list : CollectiveDeviceList -> option IotaReplicaGroupList;
  StepSpec_start0 : Z;
  StepSpec_stop0 : Z
}.

(** ** Collective types *)

Inductive CollectiveType : Type :=
| ALL_REDUCE
| ALL_GATHER.

Definition ParseCollectives_step
  (types : list CollectiveType) (token : string) : list CollectiveType :=
  if token =? "ALL_REDUCE" then (types ++ [ALL_REDUCE])%list
  else if token =? "ALL_GATHER" then (types ++ [ALL_GATHER])%list
  else types.

Definition ParseCollectives (unparsed : string) : result (list CollectiveType) :=
  _ <- CHECK (negb (unparsed =? "")) ;;
  let types := fold_left ParseCollectives_step (StrSplit unparsed ",") [] in
  _ <- CHECK (0 <? length types)%nat ;;
  Ok types.

(** The flag's documented spelling of each collective type, and the test
    "this token is one of the allowed values". *)
Definition CollectiveType_name (t : CollectiveType) : string :=
  match t with
  | ALL_REDUCE => "ALL_REDUCE"
  | ALL_GATHER => "ALL_GATHER"
  end.

Definition is_collective_name (token : string) : bool :=
  (token =? "ALL_REDUCE") || (token =? "ALL_GATHER").

(** ** Key/value tokens *)

Definition ExtractKV (token_it : string) (elem_delim : ascii)
  : result (string * string) :=
  let token := token_it in
  match find_first_of token elem_delim with
  | None => Fatal                                   (* CHECK_NE(delim_pos, npos) *)
  | Some delim_pos =>
      _ <- CHECK (delim_pos + 1 <? String.length token)%nat ;;
      let key := substr token 0 delim_pos in
      let value := substr_from token (delim_pos + 1) in
      Ok (key, value)
  end.

(** The default argument [elem_delim = '=']. *)
Definition kElemDelim : ascii := "="%char.

(** ** Step specifications *)

(** Modelled from the spec: [CollectivePerfTableGen::StepSpec] is declared in
    [collective_perf_table_gen.h], which is not part of the sources at hand.
    The data model gives it as [{start: integer, stop: integer,
    factor: integer (optional), step: integer (optional)}]; an optional
    field that no token assigned is [None]. *)
Record StepSpec : Type := {
  start : Z;
  stop : Z;
  factor : option Z;
  step : option Z
}.

Definition set_start (spec : StepSpec) (v : Z) : StepSpec :=
  {| start := v; stop := stop spec; factor := factor spec; step := step spec |}.
Definition set_stop (spec : StepSpec) (v : Z) : StepSpec :=
  {| start := start spec; stop := v; factor := factor spec; step := step spec |}.
Definition set_factor (spec : StepSpec) (v : Z) : StepSpec :=
  {| start := start spec; stop := stop spec; factor := Some v; step := step spec |}.
Definition set_step (spec : StepSpec) (v : Z) : StepSpec :=
  {| start := start spec; stop := stop spec; factor := factor spec; step := Some v |}.

(** The default-constructed [StepSpec spec;]. *)
Definition StepSpec_default `{External} : StepSpec :=
  {| start := StepSpec_start0; stop := StepSpec_stop0;
     factor := None; step := None |}.

(** [CHECK(absl::SimpleAtoi(value, &field))]. *)
Definition CHECK_SimpleAtoi `{External} (value : string) : result Z :=
  match SimpleAtoi value with
  | Some n => Ok n
  | None => Fatal
  end.

(** The body of the loop of [ParseStepSpec], run on one token. *)
Definition ParseStepSpec_token `{External} (spec : StepSpec) (token : string)
  : result StepSpec :=
  kv <- ExtractKV token kElemDelim ;;
  let '(key, value) := kv in
  if key =? "start" then
    n <- CHECK_SimpleAtoi value ;; Ok (set_start spec n)
  else if key =? "stop" then
    n <- CHECK_SimpleAtoi value ;; Ok (set_stop spec n)
  else if key =? "factor" then
    n <- CHECK_SimpleAtoi value ;; Ok (set_factor spec n)
  else if key =? "step" then
    n <- CHECK_SimpleAtoi value ;; Ok (set_step spec n)
  else Fatal.                                       (* LOG(FATAL) *)

Fixpoint ParseStepSpec_loop `{External} (tokens : list string) (spec : StepSpec)
  : result StepSpec :=
  match tokens with
  | [] => Ok spec
  | token :: rest =>
      spec' <- ParseStepSpec_token spec token ;;
      ParseStepSpec_loop rest spec'
  end.

Definition ParseStepSpec `{External} (unparsed : string) : result StepSpec :=
  ParseStepSpec_loop (StrSplit unparsed ",") StepSpec_default.

(** The keys [ParseStepSpec] knows. *)
Definition StepSpec_keys : list string := ["start"; "stop"; "factor"; "step"].

(** The three ways a token of the step spec can be wrong: no ['='] in it;
    the text before its first ['='] is not a known key; the text after its
    first ['='] is not an integer for [SimpleAtoi]. *)
Definition token_lacks_delim (token : string) : Prop :=
  find_first_of token kElemDelim = None.

Definition token_unknown_key (token : string) : Prop :=
  exists key value,
    token = key ++ "=" ++ value
    /\ find_first_of key kElemDelim = None
    /\ ~ In key StepSpec_keys.

Definition token_bad_value `{External} (token : string) : Prop :=
  exists key value,
    token = key ++ "=" ++ value
    /\ find_first_of key kElemDelim = None
    /\ SimpleAtoi value = None.

Definition token_malformed `{External} (token : string) : Prop :=
  token_lacks_delim token \/ token_unknown_key token \/ token_bad_value token.

(** ** Device lists *)

Definition GetCollectiveDeviceList `{External}
  (collective_device_list_unparsed : string) : result IotaReplicaGroupList :=
  match ParseCollectiveDeviceListOnly collective_device_list_unparsed with
  | None => Fatal                                   (* CHECK_OK *)
  | Some collective_device_list =>
      match iota_replica_group_list collective_device_list with
      | None => Fatal                               (* CHECK(...has_value()) *)
      | Some iota => Ok iota
      end
  end.

Fixpoint GetCollectiveDeviceLists_loop `{External}
  (tokens : list string) (device_lists : list IotaReplicaGroupList)
  : result (list IotaReplicaGroupList) :=
  match tokens with
  | [] => Ok device_lists
  | token :: rest =>
      iota <- GetCollectiveDeviceList token ;;
      GetCollectiveDeviceLists_loop rest (device_lists ++ [iota])%list
  end.

(** What follows the loop: [CHECK_GT(device_lists.size(), 0)] and the
    return. *)
Definition GetCollectiveDeviceLists_finish `{External}
  (device_lists : list IotaReplicaGroupList)
  : result (list IotaReplicaGroupList) :=
  _ <- CHECK (0 <? length device_lists)%nat ;;
  Ok device_lists.

Definition GetCollectiveDeviceLists `{External}
  (collective_device_lists_unparsed : string)
  : result (list IotaReplicaGroupList) :=
  device_lists <-
    GetCollectiveDeviceLists_loop
      (StrSplit collective_device_lists_unparsed ";") [] ;;
  GetCollectiveDeviceLists_finish device_lists.

(** The two ways a segment of the device spec can be wrong: the parser
    returns an error, or it returns a device list that has no iota form. *)
Definition segment_unparsable `{External} (segment : string) : Prop :=
  ParseCollectiveDeviceListOnly segment = None.

Definition segment_not_iota `{External} (segment : string) : Prop :=
  exists device_list,
    ParseCollectiveDeviceListOnly segment = Some device_list
    /\ iota_replica_group_list device_list = None.

Definition segment_rejected `{External} (segment : string) : Prop :=
  segment_unparsable segment \/ segment_not_iota segment.

(** [iota] is what the driver reads from [segment]. *)
Definition segment_reads `{External}
  (segment : string) (iota : IotaReplicaGroupList) : Prop :=
  GetCollectiveDeviceList segment = Ok iota.

(** ** [main]: flags and the configuration *)

Definition kDefaultCoordinatorAddress : string := "127.0.0.1:1234".

(** Modelled from the spec: [CollectivePerfTableGen::Config::kStdout] is
    declared in [collective_perf_table_gen.h], which is not part of the
    sources at hand.  The option table gives the default of [output] as the
    "stdout" sentinel, and the help text of the flag in [main] names the
    value 'stdout' as the one that prints to the standard output. *)
Definition kStdout : string := "stdout".

(** The local variables of [main] the flags write to. *)
Record MainVars : Type := {
  num_nodes : Z;
  task_id : Z;
  collectives_unparsed : string;
  tensor_size_bytes_spec_unparsed : string;
  collective_devices_spec_unparsed : string;
  coordinator_address : string;
  output : string
}.

(** Their initial values. *)
Definition main_vars0 : MainVars :=
  {| num_nodes := 1;
     task_id := 0;
     collectives_unparsed := "";
     tensor_size_bytes_spec_unparsed := "";
     collective_devices_spec_unparsed := "";
     coordinator_address := kDefaultCoordinatorAddress;
     output := kStdout |}.

(** One option supplied on the command line, already matched against
    [flag_list] and converted to the type of its variable. *)
Inductive FlagArg : Type :=
| Arg_num_nodes (v : Z)
| Arg_task_id (v : Z)
| Arg_collectives (v : string)
| Arg_tensor_size_bytes_spec (v : string)
| Arg_collective_devices_spec (v : string)
| Arg_coordinator_address (v : string)
| Arg_output (v : string).

Definition set_flag (vars : MainVars) (arg : FlagArg) : MainVars :=
  match arg with
  | Arg_num_nodes v =>
      {| num_nodes := v; task_id := task_id vars;
         collectives_unparsed := collectives_unparsed vars;
         tensor_size_bytes_spec_unparsed := tensor_size_bytes_spec_unparsed vars;
         collective_devices_spec_unparsed := collective_devices_spec_unparsed vars;
         coordinator_address := coordinator_address vars;
         output := output vars |}
  | Arg_task_id v =>
      {| num_nodes := num_nodes vars; task_id := v;
         collectives_unparsed := collectives_unparsed vars;
         tensor_size_bytes_spec_unparsed := tensor_size_bytes_spec_unparsed vars;
         collective_devices_spec_unparsed := collective_devices_spec_unparsed vars;
         coordinator_address := coordinator_address vars;
         output := output vars |}
  | Arg_collectives v =>
      {| num_nodes := num_nodes vars; task_id := task_id vars;
         collectives_unparsed := v;
         tensor_size_bytes_spec_unparsed := tensor_size_bytes_spec_unparsed vars;
         collective_devices_spec_unparsed := collective_devices_spec_unparsed vars;
         coordinator_address := coordinator_address vars;
         output := output vars |}
  | Arg_tensor_size_bytes_spec v =>
      {| num_nodes := num_nodes vars; task_id := task_id vars;
         collectives_unparsed := collectives_unparsed vars;
         tensor_size_bytes_spec_unparsed := v;
         collective_devices_spec_unparsed := collective_devices_spec_unparsed vars;
         coordinator_address := coordinator_address vars;
         output := output vars |}
  | Arg_collective_devices_spec v =>
      {| num_nodes := num_nodes vars; task_id := task_id vars;
         collectives_unparsed := collectives_unparsed vars;
         tensor_size_bytes_spec_unparsed := tensor_size_bytes_spec_unparsed vars;
         collective_devices_spec_unparsed := v;
         coordinator_address := coordinator_address vars;
         output := output vars |}
  | Arg_coordinator_address v =>
      {| num_nodes := num_nodes vars; task_id := task_id vars;
         collectives_unparsed := collectives_unparsed vars;
         tensor_size_bytes_spec_unparsed := tensor_size_bytes_spec_unparsed vars;
         collective_devices_spec_unparsed := collective_devices_spec_unparsed vars;
         coordinator_address := v;
         output := output vars |}
  | Arg_output v =>
      {| num_nodes := num_nodes vars; task_id := task_id vars;
         collectives_unparsed := collectives_unparsed vars;
         tensor_size_bytes_spec_unparsed := tensor_size_bytes_spec_unparsed vars;
         collective_devices_spec_unparsed := collective_devices_spec_unparsed vars;
         coordinator_address := coordinator_address vars;
         output := v |}
  end.

(** [tsl::Flags::Parse] on a well-formed command line: every supplied
    option is stored into its variable, in command-line order. *)
Definition Flags_Parse (args : list FlagArg) (vars : MainVars) : MainVars :=
  fold_left set_flag args vars.

(** Which options a command line supplies. *)
Definition supplies_num_nodes (arg : FlagArg) : bool :=
  match arg with Arg_num_nodes _ => true | _ => false end.
Definition supplies_task_id (arg : FlagArg) : bool :=
  match arg with Arg_task_id _ => true | _ => false end.
Definition supplies_coordinator_address (arg : FlagArg) : bool :=
  match arg with Arg_coordinator_address _ => true | _ => false end.
Definition supplies_output (arg : FlagArg) : bool :=
  match arg with Arg_output _ => true | _ => false end.

(** [CollectivePerfTableGen::Config], with the fields [main] assigns. *)
Record Config `{External} : Type := {
  cfg_coordinator_address : string;
  cfg_num_nodes : Z;
  cfg_task_id : Z;
  cfg_collective_types : list CollectiveType;
  cfg_tensor_size_bytes_spec : StepSpec;
  cfg_replica_groups_list : list IotaReplicaGroupList;
  cfg_output : string
}.

(** [main] from the variables the flags have filled up to the point where
    [cfg] is complete and handed to [CollectivePerfTableGen::Create]. *)
Definition main_build_config `{External} (vars : MainVars) : result Config :=
  collective_types <- ParseCollectives (collectives_unparsed vars) ;;
  tensor_size_bytes_spec <- ParseStepSpec (tensor_size_bytes_spec_unparsed vars) ;;
  replica_groups_list <-
    GetCollectiveDeviceLists (collective_devices_spec_unparsed vars) ;;
  Ok {| cfg_coordinator_address := coordinator_address vars;
        cfg_num_nodes := num_nodes vars;
        cfg_task_id := task_id vars;
        cfg_collective_types := collective_types;
        cfg_tensor_size_bytes_spec := tensor_size_bytes_spec;
        cfg_replica_groups_list := replica_groups_list;
        cfg_output := output vars |}.

Definition main_config `{External} (args : list FlagArg) : result Config :=
  main_build_config (Flags_Parse args main_vars0).

(** ** The sweep over tensor sizes *)

(** What running a sweep gives: a configuration error, the sizes, or no
    answer within the number of steps allowed. *)
Inductive SweepOutcome : Type :=
| ConfigError
| Sizes (sizes : list Z)
| OutOfFuel.

(** The sizes [cur], [next cur], [next (next cur)], ... taken while the
    current one is [<= stop]; [None] when [fuel] steps do not reach the
    bound. *)
Fixpoint sweep_from (fuel : nat) (next : Z -> Z) (cur stop : Z)
  : option (list Z) :=
  if (cur <=? stop)%Z then
    match fuel with
    | O => None
    | S fuel' => option_map (cons cur) (sweep_from fuel' next (next cur) stop)
    end
  else Some [].

Definition sweep_outcome (sizes : option (list Z)) : SweepOutcome :=
  match sizes with
  | Some l => Sizes l
  | None => OutOfFuel
  end.

(** Modelled from the spec: the sweep is run by [CollectivePerfTableGen]
    ([collective_perf_table_gen.cc]), which is not part of the sources at
    hand.  Section 4.1: "given a StepSpec, produce the ordered finite
    sequence of sizes start, start*factor, start*factor^2, ... (or additive
    with step) while the current value is <= stop"; "the generator itself
    must guard against non-advancing steps and fail fast with a ConfigError"
    for [factor <= 1] or [step <= 0].  Section 3: "exactly one of factor or
    step is meaningful", so a spec carrying both is a configuration error;
    "if both absent, the sweep is degenerate (single value start)". *)
Definition SweepGenerator_fuel (fuel : nat) (spec : StepSpec) : SweepOutcome :=
  match factor spec, step spec with
  | None, None => Sizes [start spec]
  | Some f, None =>
      if (f <=? 1)%Z then ConfigError
      else sweep_outcome (sweep_from fuel (fun x => x * f) (start spec) (stop spec))
  | None, Some d =>
      if (d <=? 0)%Z then ConfigError
      else sweep_outcome (sweep_from fuel (fun x => x + d) (start spec) (stop spec))
  | Some _, Some _ => ConfigError
  end.

(** How many sizes an advancing sweep can have: with [start >= 1] and
    [factor >= 2] every size is at least a power of two higher than the one
    before, and with [step >= 1] the sizes are [step] apart. *)
Definition sweep_steps (spec : StepSpec) : nat :=
  match factor spec, step spec with
  | Some _, _ => S (Z.to_nat (Z.log2 (stop spec)))
  | None, Some d => Z.to_nat ((stop spec - start spec) / d + 1)
  | None, None => O
  end.

Definition SweepGenerator (spec : StepSpec) : SweepOutcome :=
  SweepGenerator_fuel (sweep_steps spec) spec.

(** The invariant of the data model on a multiplicative [StepSpec]:
    [start >= 1], and of [factor] and [step] only [factor] present. *)
Definition valid_multiplicative (spec : StepSpec) (f : Z) : Prop :=
  1 <= start spec /\ factor spec = Some f /\ step spec = None.

Definition strictly_increasing (l : list Z) : Prop :=
  forall i j x y, nth_error l i = Some x -> nth_error l j = Some y ->
                  (i < j)%nat -> x < y.

(** The first [n] sizes of the multiplicative sweep from [cur]:
    [cur], [cur * f], ..., [cur * f ^ (n - 1)]. *)
Definition geometric (cur f : Z) (n : nat) : list Z :=
  map (fun i => cur * f ^ Z.of_nat i) (seq 0 n).

(** ** A concrete instance of the interface

    Used to run the driver on the command lines of its usage text. *)

Definition is_space (c : ascii) : bool :=
  let n := nat_of_ascii c in
  (n =? 32)%nat || ((9 <=? n) && (n <=? 13))%nat.

Definition is_digit (c : ascii) : bool :=
  let n := nat_of_ascii c in (48 <=? n)%nat && (n <=? 57)%nat.

Definition digit_value (c : ascii) : Z := Z.of_nat (nat_of_ascii c) - 48.

Fixpoint parse_digits (acc : Z) (s : string) : option Z :=
  match s with
  | EmptyString => Some acc
  | String c rest =>
      if is_digit c then parse_digits (acc * 10 + digit_value c) rest
      else None
  end.

Definition parse_decimal (s : string) : option Z :=
  match s with
  | EmptyString => None
  | _ => parse_digits 0 s
  end.

Fixpoint strip_leading (s : string) : string :=
  match s with
  | EmptyString => EmptyString
  | String c rest => if is_space c then strip_leading rest else s
  end.

Fixpoint strip_trailing (s : string) : string :=
  match s with
  | EmptyString => EmptyString
  | String c rest =>
      match strip_trailing rest with
      | EmptyString => if is_space c then EmptyString else String c EmptyString
      | rest' => String c rest'
      end
  end.

Definition INT64_MIN : Z := - 2 ^ 63.
Definition INT64_MAX : Z := 2 ^ 63 - 1.

(** [absl::SimpleAtoi] at [int64_t], after its documentation: optional
    ASCII whitespace around the number, an optional sign, at least one
    decimal digit and nothing else, and the value within the range of the
    type. *)
Definition SimpleAtoi_int64 (value : string) : option Z :=
  let text := strip_trailing (strip_leading value) in
  match text with
  | EmptyString => None
  | String c rest =>
      let negative := Ascii.eqb c "-" in
      let digits := if negative || Ascii.eqb c "+" then rest else text in
      match parse_decimal digits with
      | None => None
      | Some n =>
          let v := if negative then - n else n in
          if ((INT64_MIN <=? v) && (v <=? INT64_MAX))%Z then Some v else None
      end
  end.

Record SampleIota : Type := {
  num_replica_groups : Z;
  num_devices_per_group : Z;
  reshape_dims : list Z
}.

Inductive SampleDeviceList : Type :=
| Sample_iota (iota : SampleIota)
| Sample_explicit (text : string).

(** [Some body] when [s] is [body] followed by the character [c]. *)
Fixpoint strip_last (s : string) (c : ascii) : option string :=
  match s with
  | EmptyString => None
  | String a EmptyString => if Ascii.eqb a c then Some EmptyString else None
  | String a rest => option_map (String a) (strip_last rest c)
  end.

Fixpoint parse_all_decimal (pieces : list string) : option (list Z) :=
  match pieces with
  | [] => Some []
  | piece :: rest =>
      match parse_decimal piece, parse_all_decimal rest with
      | Some n, Some ns => Some (n :: ns)
      | _, _ => None
      end
  end.

(** A list of decimal numbers between square brackets. *)
Definition parse_bracketed (s : string) : option (list Z) :=
  match s with
  | String "[" rest =>
      match strip_last rest "]" with
      | Some body => parse_all_decimal (StrSplit body ",")
      | None => None
      end
  | _ => None
  end.

(** Modelled from the spec: the HLO parser is not part of the sources at
    hand.  This stand-in reads the form of the usage text,
    [[groups,devices_per_group]<=[dims]] with no zero among the numbers, as
    an iota list; a text in braces stands for an
    explicitly enumerated list, which has no iota form; anything else does
    not parse. *)
Definition Sample_ParseCollectiveDeviceListOnly (s : string)
  : option SampleDeviceList :=
  match s with
  | String "{" _ => Some (Sample_explicit s)
  | _ =>
      match find_first_of s "<" with
      | None => None
      | Some pos =>
          match substr_from s (pos + 1) with
          | String "=" dims_text =>
              match parse_bracketed (substr s 0 pos), parse_bracketed dims_text with
              | Some [groups; per_group], Some dims =>
                  if (negb (groups * per_group =? 0)
                      && negb (fold_right Z.mul 1 dims =? 0))%Z
                  then Some (Sample_iota
                               {| num_replica_groups := groups;
                                  num_devices_per_group := per_group;
                                  reshape_dims := dims |})
                  else None
              | _, _ => None
              end
          | _ => None
          end
      end
  end.

Definition Sample_iota_replica_group_list (l : SampleDeviceList)
  : option SampleIota :=
  match l with
  | Sample_iota iota => Some iota
  | Sample_explicit _ => None
  end.

Definition Sample : External :=
  {| SimpleAtoi := SimpleAtoi_int64;
     CollectiveDeviceList := SampleDeviceList;
     IotaReplicaGroupList := SampleIota;
     ParseCollectiveDeviceListOnly := Sample_ParseCollectiveDeviceListOnly;
     iota_replica_group_list := Sample_iota_replica_group_list;
     StepSpec_start0 := 0;
     StepSpec_stop0 := 0 |}.

Definition iota_1_8 : SampleIota :=
  {| num_replica_groups := 1; num_devices_per_group := 8; reshape_dims := [8] |}.
Definition iota_2_4 : SampleIota :=
  {| num_replica_groups := 2; num_devices_per_group := 4; reshape_dims := [4] |}.

(** The step spec of the usage text, one whose range is empty, one whose
    range is a single size, and one that does not advance. *)
Definition usage_spec : StepSpec :=
  {| start := 1024; stop := 2147483648; factor := Some 2; step := None |}.
Definition empty_range_spec : StepSpec :=
  {| start := 5; stop := 3; factor := Some 2; step := None |}.
Definition single_size_spec : StepSpec :=
  {| start := 6; stop := 6; factor := Some 3; step := None |}.
Definition stuck_spec : StepSpec :=
  {| start := 1; stop := 8; factor := Some 1; step := None |}.

(** A command line that leaves [num_nodes], [task_id],
    [coordinator_address] and [output] out, and one whose task identifier
    is not below the number of nodes. *)
Definition minimal_args : list FlagArg :=
  [ Arg_collectives "ALL_REDUCE,ALL_GATHER";
    Arg_tensor_size_bytes_spec "start=1,stop=8,factor=2";
    Arg_collective_devices_spec "[1,8]<=[8];[2,4]<=[4]" ].

Definition out_of_range_args : list FlagArg :=
  Arg_num_nodes 1 :: Arg_task_id 5 :: minimal_args.

(** The first command line of the usage text. *)
Definition usage_args : list FlagArg :=
  [ Arg_num_nodes 2;
    Arg_task_id 0;
    Arg_collectives "ALL_REDUCE";
    Arg_tensor_size_bytes_spec "start=1024,stop=2147483648,factor=2";
    Arg_collective_devices_spec "[1,8]<=[8]" ].

(** ** Vocabulary for the further properties *)

(** The pieces written one after the other with [sep] between them: the
    text [StrSplit] takes apart. *)
Fixpoint StrJoin (pieces : list string) (sep : ascii) : string :=
  match pieces with
  | [] => EmptyString
  | [piece] => piece
  | piece :: rest => piece ++ String sep (StrJoin rest sep)
  end.

(** The option text that lists [types] by name. *)
Definition collectives_text (types : list CollectiveType) : string :=
  StrJoin (map CollectiveType_name types) ",".

(** The types a run of [ParseCollectives] has collected, none when it
    aborts; and the final check of [ParseCollectives] on a list. *)
Definition collected (r : result (list CollectiveType)) : list CollectiveType :=
  match r with
  | Ok types => types
  | Fatal => []
  end.

Definition nonempty_or_fatal (types : list CollectiveType)
  : result (list CollectiveType) :=
  match types with
  | [] => Fatal
  | _ => Ok types
  end.

(** The value [token] gives to [key], when [token] splits into that key and
    a value; and the value the last such token of a spec gives. *)
Definition token_assigns (key token : string) : option string :=
  match ExtractKV token kElemDelim with
  | Ok (k, v) => if k =? key then Some v else None
  | Fatal => None
  end.

Fixpoint last_value (key : string) (tokens : list string) : option string :=
  match tokens with
  | [] => None
  | token :: rest =>
      match last_value key rest with
      | Some v => Some v
      | None => token_assigns key token
      end
  end.

Definition supplies_collectives (arg : FlagArg) : bool :=
  match arg with Arg_collectives _ => true | _ => false end.
Definition supplies_tensor_size_bytes_spec (arg : FlagArg) : bool :=
  match arg with Arg_tensor_size_bytes_spec _ => true | _ => false end.

(** A command line without the step spec, one whose step spec does not
    advance, and the two text options given last on a command line. *)
Definition no_spec_args : list FlagArg :=
  [ Arg_collectives "ALL_REDUCE";
    Arg_collective_devices_spec "[1,8]<=[8]" ].


Definition text_args (a o : string) : list FlagArg :=
  [ Arg_coordinator_address a; Arg_output o ].

(** ** Facts about the string operations *)

Lemma StrSplit_nonempty (text : string) (delim : ascii) :
  StrSplit text delim <> [].
Proof.
  induction text as [|c rest IH]; simpl; [discriminate|].
  destruct (Ascii.eqb c delim); [discriminate|].
  destruct (StrSplit rest delim); discriminate.
Qed.

Lemma find_first_of_app_delim (key value : string) (c : ascii) :
  find_first_of key c = None ->
  find_first_of (key ++ String c value) c = Some (String.length key).
Proof.
  induction key as [|a key IH]; simpl; intros Hk.
  - now rewrite Ascii.eqb_refl.
  - destruct (Ascii.eqb a c); [discriminate|].
    destruct (find_first_of key c); [discriminate|].
    now rewrite IH.
Qed.

Lemma substr_prefix (key rest : string) :
  substr (key ++ rest) 0 (String.length key) = key.
Proof.
  unfold substr. induction key as [|a key IH]; simpl.
  - now destruct rest.
  - now rewrite IH.
Qed.

Lemma substr_from_suffix (key rest : string) (c : ascii) :
  substr_from (key ++ String c rest) (String.length key + 1) = rest.
Proof.
  induction key as [|a key IH]; simpl; [reflexivity|apply IH].
Qed.

Lemma length_app (s t : string) :
  String.length (s ++ t) = (String.length s + String.length t)%nat.
Proof.
  induction s as [|a s IH]; simpl; [reflexivity|now rewrite IH].
Qed.

(** A token with a delimiter splits at its first occurrence. *)
Lemma find_first_of_split (token : string) (c : ascii) (pos : nat) :
  find_first_of token c = Some pos ->
  token = substr token 0 pos ++ String c (substr_from token (pos + 1))
  /\ find_first_of (substr token 0 pos) c = None
  /\ String.length (substr token 0 pos) = pos.
Proof.
  unfold substr. revert pos.
  induction token as [|a token IH]; simpl; intros pos H; [discriminate|].
  destruct (Ascii.eqb a c) eqn:E.
  - injection H as <-. apply Ascii.eqb_eq in E. subst a. simpl.
    repeat split.
  - destruct (find_first_of token c) as [p|] eqn:F; [|discriminate].
    injection H as <-. simpl.
    destruct (IH p eq_refl) as (H1 & H2 & H3).
    rewrite E, H2, H3. repeat split.
    now rewrite <- H1.
Qed.

Lemma ExtractKV_Ok (key value : string) (c : ascii) :
  find_first_of key c = None -> value <> "" ->
  ExtractKV (key ++ String c value) c = Ok (key, value).
Proof.
  intros Hk Hv. unfold ExtractKV.
  rewrite (find_first_of_app_delim _ _ _ Hk).
  rewrite length_app. simpl.
  destruct value as [|v value]; [contradiction|]. simpl.
  replace (String.length key + 1 <? String.length key + S (S (String.length value)))%nat
    with true by (symmetry; apply Nat.ltb_lt; lia).
  simpl. rewrite substr_prefix.
  now rewrite (substr_from_suffix key (String v value) c).
Qed.

Lemma ExtractKV_empty_value (key : string) (c : ascii) :
  find_first_of key c = None ->
  ExtractKV (key ++ String c "") c = Fatal.
Proof.
  intros Hk. unfold ExtractKV.
  rewrite (find_first_of_app_delim _ _ _ Hk).
  rewrite length_app. simpl.
  replace (String.length key + 1 <? String.length key + 1)%nat
    with false by (symmetry; apply Nat.ltb_ge; lia).
  reflexivity.
Qed.

Lemma ExtractKV_inv (token : string) (c : ascii) (key value : string) :
  ExtractKV token c = Ok (key, value) ->
  token = key ++ String c value
  /\ find_first_of key c = None
  /\ value <> "".
Proof.
  unfold ExtractKV.
  destruct (find_first_of token c) as [pos|] eqn:F; [|discriminate].
  destruct (pos + 1 <? String.length token)%nat eqn:L; simpl; [|discriminate].
  intros H. injection H as <- <-.
  destruct (find_first_of_split _ _ _ F) as (H1 & H2 & H3).
  repeat split; trivial.
  intros Hv. apply Nat.ltb_lt in L.
  rewrite H1, Hv, length_app, H3 in L. simpl in L. lia.
Qed.

Lemma ExtractKV_Fatal_inv (token : string) (c : ascii) :
  ExtractKV token c = Fatal ->
  find_first_of token c = None
  \/ exists key, token = key ++ String c "" /\ find_first_of key c = None.
Proof.
  unfold ExtractKV.
  destruct (find_first_of token c) as [pos|] eqn:F; [|now left].
  destruct (pos + 1 <? String.length token)%nat eqn:L; simpl; [discriminate|].
  intros _. right.
  destruct (find_first_of_split _ _ _ F) as (H1 & H2 & H3).
  exists (substr token 0 pos). split; trivial.
  apply Nat.ltb_ge in L.
  destruct (substr_from token (pos + 1)) as [|v value] eqn:V; [exact H1|].
  rewrite H1, length_app, H3 in L. simpl in L. lia.
Qed.

(** ** Collective types: [ParseCollectives] *)

Lemma ParseCollectives_step_name (token : string) (types : list CollectiveType) :
  map CollectiveType_name (ParseCollectives_step types token)
  = (map CollectiveType_name types
     ++ filter is_collective_name [token])%list.
Proof.
  unfold ParseCollectives_step, is_collective_name. simpl.
  destruct (token =? "ALL_REDUCE") eqn:R.
  - apply String.eqb_eq in R. subst token. now rewrite map_app.
  - destruct (token =? "ALL_GATHER") eqn:G.
    + apply String.eqb_eq in G. subst token. now rewrite map_app.
    + simpl. now rewrite app_nil_r.
Qed.

Lemma ParseCollectives_loop_names (tokens : list string) :
  forall types,
    map CollectiveType_name (fold_left ParseCollectives_step tokens types)
    = (map CollectiveType_name types ++ filter is_collective_name tokens)%list.
Proof.
  induction tokens as [|token tokens IH]; intros types; simpl.
  - now rewrite app_nil_r.
  - rewrite IH, ParseCollectives_step_name. simpl.
    rewrite <- app_assoc.
    now destruct (is_collective_name token).
Qed.

Lemma StrSplit_empty (delim : ascii) : StrSplit "" delim = [""].
Proof. reflexivity. Qed.

(** C1.  [ParseCollectives] returns, in order, exactly the tokens of the
    comma-separated text that spell ALL_REDUCE or ALL_GATHER and drops all
    the others; it aborts exactly when no token is recognised, so it never
    returns an empty list.  "ALL_REDUCE,BOGUS,ALL_GATHER" gives
    [ALL_REDUCE; ALL_GATHER] and "BOGUS" aborts. *)
Theorem ParseCollectives_keeps_known_tokens :
  (forall unparsed,
      match ParseCollectives unparsed with
      | Ok types =>
          map CollectiveType_name types
          = filter is_collective_name (StrSplit unparsed ",")
          /\ types <> []
      | Fatal => filter is_collective_name (StrSplit unparsed ",") = []
      end)
  /\ ParseCollectives "ALL_REDUCE,BOGUS,ALL_GATHER" = Ok [ALL_REDUCE; ALL_GATHER]
  /\ ParseCollectives "BOGUS" = Fatal.
Proof.
  split; [|split; reflexivity].
  intros unparsed. unfold ParseCollectives.
  destruct (unparsed =? "") eqn:E; simpl.
  - apply String.eqb_eq in E. now subst unparsed.
  - pose proof (ParseCollectives_loop_names (StrSplit unparsed ",") []) as N.
    simpl in N.
    destruct (fold_left ParseCollectives_step (StrSplit unparsed ",") [])
      as [|t types] eqn:F; simpl.
    + now rewrite <- N.
    + split; [exact N|discriminate].
Qed.

(** ** Step specifications: [ExtractKV] and [ParseStepSpec] *)

Section StepSpecParser.
Context `{External}.

Lemma CHECK_SimpleAtoi_Fatal (value : string) :
  CHECK_SimpleAtoi value = Fatal <-> SimpleAtoi value = None.
Proof.
  unfold CHECK_SimpleAtoi.
  destruct (SimpleAtoi value); split; congruence.
Qed.

Lemma known_key_dec (key : string) :
  ~ In key StepSpec_keys <->
  (key =? "start") = false /\ (key =? "stop") = false
  /\ (key =? "factor") = false /\ (key =? "step") = false.
Proof.
  unfold StepSpec_keys. simpl. rewrite !String.eqb_neq.
  split.
  - intros N. repeat split; intros E; apply N; subst key; tauto.
  - intros (A & B & C & D) [E|[E|[E|[E|[]]]]]; congruence.
Qed.

(** Once [ExtractKV] has split a token, the rest of the loop body aborts
    exactly on an unknown key or a value [SimpleAtoi] refuses. *)
Lemma ParseStepSpec_token_split (spec : StepSpec) (key value : string) :
  find_first_of key kElemDelim = None -> value <> "" ->
  ParseStepSpec_token spec (key ++ "=" ++ value) = Fatal <->
  ~ In key StepSpec_keys \/ SimpleAtoi value = None.
Proof.
  intros Hk Hv. unfold ParseStepSpec_token.
  change (key ++ "=" ++ value) with (key ++ String kElemDelim value).
  rewrite known_key_dec.
  rewrite (ExtractKV_Ok _ _ _ Hk Hv). simpl.
  destruct (key =? "start") eqn:E1;
    [|destruct (key =? "stop") eqn:E2;
      [|destruct (key =? "factor") eqn:E3;
        [|destruct (key =? "step") eqn:E4]]];
    try (unfold CHECK_SimpleAtoi; destruct (SimpleAtoi value); simpl;
         split; [discriminate| intros [(?&?&?&?)|?]; discriminate
               | right; reflexivity | reflexivity ]).
  split; [intros _; left; repeat split|reflexivity].
Qed.

Lemma ParseStepSpec_token_Fatal
  (Hempty : SimpleAtoi "" = None) (spec : StepSpec) (token : string) :
  ParseStepSpec_token spec token = Fatal <-> token_malformed token.
Proof.
  unfold token_malformed, token_lacks_delim, token_unknown_key,
    token_bad_value.
  split.
  - intros F. destruct (ExtractKV token kElemDelim) as [[key value]|] eqn:X.
    + destruct (ExtractKV_inv _ _ _ _ X) as (T & Hk & Hv).
      subst token.
      apply (ParseStepSpec_token_split spec key value Hk Hv) in F.
      destruct F as [U|B]; right; [left|right]; exists key, value; auto.
    + destruct (ExtractKV_Fatal_inv _ _ X) as [N|(key & T & Hk)];
        [now left|].
      right; right. exists key, "". auto.
  - assert (E : forall key, find_first_of key kElemDelim = None ->
                            ParseStepSpec_token spec (key ++ "=") = Fatal).
    { intros key Hk. unfold ParseStepSpec_token.
      change (key ++ "=") with (key ++ String kElemDelim "").
      now rewrite (ExtractKV_empty_value _ _ Hk). }
    intros [N|[(key & value & T & Hk & U)|(key & value & T & Hk & B)]].
    + unfold ParseStepSpec_token, ExtractKV. now rewrite N.
    + subst token. destruct value as [|v value]; [now apply E|].
      apply ParseStepSpec_token_split; auto. discriminate.
    + subst token. destruct value as [|v value]; [now apply E|].
      apply ParseStepSpec_token_split; auto. discriminate.
Qed.

Lemma ParseStepSpec_loop_Fatal
  (Hempty : SimpleAtoi "" = None) (tokens : list string) :
  forall spec,
    ParseStepSpec_loop tokens spec = Fatal <-> Exists token_malformed tokens.
Proof.
  induction tokens as [|token tokens IH]; intros spec; simpl.
  - split; [discriminate|]. intros E. inversion E.
  - rewrite Exists_cons.
    destruct (ParseStepSpec_token spec token) as [spec'|] eqn:T; simpl.
    + rewrite IH. split; [now right|].
      intros [M|M]; [|exact M].
      apply (ParseStepSpec_token_Fatal Hempty spec) in M. congruence.
    + split; [|reflexivity]. intros _. left.
      now apply (ParseStepSpec_token_Fatal Hempty spec).
Qed.

End StepSpecParser.

(** C2.  [ParseStepSpec] aborts exactly when some comma-separated token has
    no ['='], or has a key other than start, stop, factor and step, or has a
    value that [SimpleAtoi] does not read as an integer; in every other case
    it returns a [StepSpec].  [SimpleAtoi] refuses the empty text. *)
Theorem ParseStepSpec_fatal_cases `{External}
  (Hempty : SimpleAtoi "" = None) (unparsed : string) :
  (ParseStepSpec unparsed = Fatal <->
   Exists token_malformed (StrSplit unparsed ","))
  /\ (ParseStepSpec unparsed <> Fatal <->
      exists spec, ParseStepSpec unparsed = Ok spec).
Proof.
  split.
  - apply (ParseStepSpec_loop_Fatal Hempty).
  - destruct (ParseStepSpec unparsed) as [spec|]; split.
    + intros _. now exists spec.
    + discriminate.
    + congruence.
    + intros [spec E]. discriminate.
Qed.

(** The text "start1024" of the claim, and three more wrong specs. *)
Lemma ParseStepSpec_fatal_cases_witness :
  SimpleAtoi_int64 "" = None
  /\ @ParseStepSpec Sample "start1024" = Fatal
  /\ @ParseStepSpec Sample "start=1,bogus=2" = Fatal
  /\ @ParseStepSpec Sample "start=1,stop=x" = Fatal
  /\ exists spec, @ParseStepSpec Sample "start=1,stop=8,factor=2" = Ok spec.
Proof.
  split; [reflexivity|].
  pose proof (@ParseStepSpec_fatal_cases Sample eq_refl "start1024") as [A _].
  split.
  - apply A. apply Exists_cons_hd. left. reflexivity.
  - split; [reflexivity|]. split; [reflexivity|]. eexists. reflexivity.
Defined.

(** C10.  [ExtractKV] splits a token at its first ['=']: the key is the text
    before it, the value all the text after it, and the value is never
    empty.  A token whose first ['='] is its last character aborts, in
    [ExtractKV] and hence in [ParseStepSpec] on any spec that has such a
    token. *)
Theorem ExtractKV_splits_at_first_delim `{External} :
  (forall token key value,
      ExtractKV token kElemDelim = Ok (key, value) ->
      token = key ++ "=" ++ value
      /\ find_first_of key kElemDelim = None
      /\ value <> "")
  /\ (forall key value,
         find_first_of key kElemDelim = None -> value <> "" ->
         ExtractKV (key ++ "=" ++ value) kElemDelim = Ok (key, value))
  /\ (forall key,
         find_first_of key kElemDelim = None ->
         ExtractKV (key ++ "=") kElemDelim = Fatal)
  /\ (forall unparsed key,
         find_first_of key kElemDelim = None ->
         In (key ++ "=") (StrSplit unparsed ",") ->
         ParseStepSpec unparsed = Fatal).
Proof.
  split; [|split; [|split]].
  - intros token key value X. exact (ExtractKV_inv _ _ _ _ X).
  - intros key value Hk Hv. now apply ExtractKV_Ok.
  - intros key Hk. now apply ExtractKV_empty_value.
  - intros unparsed key Hk Hin. unfold ParseStepSpec.
    generalize StepSpec_default.
    induction (StrSplit unparsed ",") as [|token tokens IH];
      intros spec; [contradiction|].
    simpl. destruct Hin as [E|Hin].
    + subst token. unfold ParseStepSpec_token.
      change (key ++ "=") with (key ++ String kElemDelim "").
      now rewrite (ExtractKV_empty_value _ _ Hk).
    + destruct (ParseStepSpec_token spec token); simpl; auto.
Qed.

Lemma ExtractKV_splits_at_first_delim_witness :
  ExtractKV "start=1024" kElemDelim = Ok ("start", "1024")
  /\ ExtractKV "a=b=c" kElemDelim = Ok ("a", "b=c")
  /\ ExtractKV "start=" kElemDelim = Fatal
  /\ @ParseStepSpec Sample "start=,stop=8" = Fatal.
Proof.
  destruct (@ExtractKV_splits_at_first_delim Sample) as (_ & A & B & C).
  split; [|split; [|split]].
  - apply (A "start" "1024"); [reflexivity|discriminate].
  - apply (A "a" "b=c"); [reflexivity|discriminate].
  - apply (B "start"). reflexivity.
  - apply (C "start=,stop=8" "start"); [reflexivity|]. simpl. now left.
Defined.

(** ** Device lists: [GetCollectiveDeviceList] and [GetCollectiveDeviceLists] *)

Section DeviceLists.
Context `{External}.

Lemma GetCollectiveDeviceList_Fatal (segment : string) :
  GetCollectiveDeviceList segment = Fatal <-> segment_rejected segment.
Proof.
  unfold GetCollectiveDeviceList, segment_rejected, segment_unparsable,
    segment_not_iota.
  destruct (ParseCollectiveDeviceListOnly segment) as [l|].
  - destruct (iota_replica_group_list l) as [iota|] eqn:I; split.
    + discriminate.
    + intros [N|(l' & P & N)]; [discriminate|].
      injection P as <-. congruence.
    + intros _. right. now exists l.
    + reflexivity.
  - split; [now left|reflexivity].
Qed.

Lemma GetCollectiveDeviceLists_loop_Fatal (tokens : list string) :
  forall device_lists,
    GetCollectiveDeviceLists_loop tokens device_lists = Fatal <->
    Exists segment_rejected tokens.
Proof.
  induction tokens as [|token tokens IH]; intros device_lists; simpl.
  - split; [discriminate|]. intros E. inversion E.
  - rewrite Exists_cons, <- GetCollectiveDeviceList_Fatal.
    destruct (GetCollectiveDeviceList token) as [iota|]; simpl.
    + rewrite IH. split; [now right|]. now intros [?|?].
    + split; [now left|reflexivity].
Qed.

Lemma GetCollectiveDeviceLists_loop_Ok (tokens : list string) :
  forall device_lists result,
    GetCollectiveDeviceLists_loop tokens device_lists = Ok result <->
    exists added,
      Forall2 segment_reads tokens added
      /\ result = (device_lists ++ added)%list.
Proof.
  unfold segment_reads.
  induction tokens as [|token tokens IH]; intros device_lists result; simpl.
  - split.
    + intros E. injection E as <-. exists []. split; [constructor|].
      now rewrite app_nil_r.
    + intros (added & F & ->). inversion F. now rewrite app_nil_r.
  - destruct (GetCollectiveDeviceList token) as [iota|] eqn:G; simpl.
    + rewrite IH. split.
      * intros (added & F & ->). exists (iota :: added).
        split; [now constructor|]. now rewrite <- app_assoc.
      * intros (added & F & ->). inversion F as [|? i ? added' E F']; subst.
        rewrite G in E. injection E as <-. exists added'.
        split; [exact F'|]. now rewrite <- app_assoc.
    + split; [discriminate|].
      intros (added & F & _). inversion F as [|? i ? added' E F']; subst.
      congruence.
Qed.

Lemma Forall2_nonempty {A B : Type} (R : A -> B -> Prop)
  (l : list A) (l' : list B) :
  Forall2 R l l' -> l <> [] -> (0 <? length l')%nat = true.
Proof.
  intros F N. destruct F; [contradiction|reflexivity].
Qed.

Lemma GetCollectiveDeviceLists_Ok (unparsed : string)
  (device_lists : list IotaReplicaGroupList) :
  GetCollectiveDeviceLists unparsed = Ok device_lists <->
  Forall2 segment_reads (StrSplit unparsed ";") device_lists.
Proof.
  unfold GetCollectiveDeviceLists, GetCollectiveDeviceLists_finish.
  destruct (GetCollectiveDeviceLists_loop (StrSplit unparsed ";") [])
    as [result|] eqn:L; simpl.
  - apply GetCollectiveDeviceLists_loop_Ok in L.
    destruct L as (added & F & ->). simpl.
    rewrite (Forall2_nonempty _ _ _ F (StrSplit_nonempty _ _)). simpl.
    split.
    + intros E. now injection E as <-.
    + intros F'. f_equal. revert F F'. clear.
      generalize (StrSplit unparsed ";"). unfold segment_reads.
      intros tokens F. revert device_lists.
      induction F as [|t a ts added E F IH]; intros device_lists F';
        inversion F' as [|? b ? bs E' F'']; subst; [reflexivity|].
      f_equal; [congruence|now apply IH].
  - split; [discriminate|]. intros F.
    assert (X : GetCollectiveDeviceLists_loop (StrSplit unparsed ";") []
                = Ok device_lists).
    { apply GetCollectiveDeviceLists_loop_Ok. now exists device_lists. }
    congruence.
Qed.

End DeviceLists.

(** C3.  [GetCollectiveDeviceLists] aborts exactly when some ';'-separated
    segment is rejected: the parser returns an error on it, or the device
    list it returns has no iota form.  An empty list of device lists aborts
    at the final check.  When it returns, the result has one entry per
    segment, each being what the segment reads as, so no segment is
    skipped. *)
Theorem GetCollectiveDeviceLists_fatal_cases `{External} (unparsed : string) :
  (GetCollectiveDeviceLists unparsed = Fatal <->
   Exists segment_rejected (StrSplit unparsed ";"))
  /\ GetCollectiveDeviceLists_finish [] = Fatal
  /\ match GetCollectiveDeviceLists unparsed with
     | Ok device_lists =>
         Forall2 segment_reads (StrSplit unparsed ";") device_lists
         /\ device_lists <> []
     | Fatal => True
     end.
Proof.
  split; [|split; [reflexivity|]].
  - unfold GetCollectiveDeviceLists.
    destruct (GetCollectiveDeviceLists_loop (StrSplit unparsed ";") [])
      as [result|] eqn:L; simpl.
    + assert (N : GetCollectiveDeviceLists_loop (StrSplit unparsed ";") []
                  <> Fatal) by congruence.
      rewrite GetCollectiveDeviceLists_loop_Fatal in N.
      apply GetCollectiveDeviceLists_loop_Ok in L.
      destruct L as (added & F & ->). simpl.
      unfold GetCollectiveDeviceLists_finish.
      rewrite (Forall2_nonempty _ _ _ F (StrSplit_nonempty _ _)). simpl.
      split; [discriminate|contradiction].
    + rewrite <- (GetCollectiveDeviceLists_loop_Fatal _ []), L. tauto.
  - destruct (GetCollectiveDeviceLists unparsed) as [device_lists|] eqn:G;
      [|exact I].
    apply GetCollectiveDeviceLists_Ok in G. split; [exact G|].
    intros ->. inversion G as [E|]. symmetry in E.
    now apply StrSplit_nonempty in E.
Qed.

(** C4.  When every ';'-separated segment reads as an iota list,
    [GetCollectiveDeviceLists] returns these lists, one per segment and in
    the order of the segments. *)
Theorem GetCollectiveDeviceLists_in_order `{External}
  (unparsed : string) (device_lists : list IotaReplicaGroupList) :
  Forall2 segment_reads (StrSplit unparsed ";") device_lists ->
  GetCollectiveDeviceLists unparsed = Ok device_lists
  /\ length device_lists = length (StrSplit unparsed ";").
Proof.
  intros F. split.
  - now apply GetCollectiveDeviceLists_Ok.
  - symmetry. exact (Forall2_length F).
Qed.

(** The two device specs of the claim. *)
Lemma GetCollectiveDeviceLists_in_order_witness :
  @GetCollectiveDeviceLists Sample "[1,8]<=[8]" = Ok [iota_1_8]
  /\ @GetCollectiveDeviceLists Sample "[1,8]<=[8];[2,4]<=[4]"
     = Ok [iota_1_8; iota_2_4].
Proof.
  split.
  - apply (@GetCollectiveDeviceLists_in_order Sample "[1,8]<=[8]" [iota_1_8]).
    repeat constructor.
  - apply (@GetCollectiveDeviceLists_in_order Sample
             "[1,8]<=[8];[2,4]<=[4]" [iota_1_8; iota_2_4]).
    repeat constructor.
Defined.

(** ** The sweep over tensor sizes *)

Lemma sweep_from_more_fuel (next : Z -> Z) (stop : Z) (fuel : nat) :
  forall cur sizes fuel',
    sweep_from fuel next cur stop = Some sizes -> (fuel <= fuel')%nat ->
    sweep_from fuel' next cur stop = Some sizes.
Proof.
  induction fuel as [|fuel IH]; intros cur sizes fuel' E L.
  - simpl in E. destruct fuel'; simpl; destruct (cur <=? stop)%Z;
      congruence.
  - destruct fuel' as [|fuel']; [lia|]. simpl in *.
    destruct (cur <=? stop)%Z; [|exact E].
    destruct (sweep_from fuel next (next cur) stop) as [l|] eqn:R;
      [|discriminate].
    rewrite (IH _ _ fuel' R); [exact E|lia].
Qed.

Lemma geometric_S (cur f : Z) (n : nat) :
  geometric cur f (S n) = cur :: geometric (cur * f) f n.
Proof.
  unfold geometric. cbn [seq]. rewrite <- seq_shift. cbn [map].
  rewrite map_map. f_equal.
  - simpl. lia.
  - apply map_ext. intros i. rewrite Nat2Z.inj_succ, Z.pow_succ_r; lia.
Qed.

Lemma geometric_nth (f : Z) (n : nat) :
  forall cur i x,
    nth_error (geometric cur f n) i = Some x ->
    (i < n)%nat /\ x = cur * f ^ Z.of_nat i.
Proof.
  induction n as [|n IH]; intros cur i x E.
  - destruct i; discriminate.
  - rewrite geometric_S in E. destruct i as [|i]; simpl in E.
    + injection E as <-. split; [lia|]. simpl. lia.
    + destruct (IH _ _ _ E) as [L ->]. split; [lia|].
      rewrite Nat2Z.inj_succ, Z.pow_succ_r; lia.
Qed.

Lemma geometric_last (cur f : Z) (n : nat) :
  last (geometric cur f (S n)) 0 = cur * f ^ Z.of_nat n.
Proof.
  unfold geometric. rewrite seq_S, map_app. simpl.
  now rewrite last_last.
Qed.

Lemma pow_lt_mono (cur f : Z) (i j : nat) :
  1 <= cur -> 1 < f -> (i < j)%nat ->
  cur * f ^ Z.of_nat i < cur * f ^ Z.of_nat j.
Proof.
  intros C F L. apply Z.mul_lt_mono_pos_l; [lia|].
  apply Z.pow_lt_mono_r; lia.
Qed.

Lemma geometric_increasing (cur f : Z) (n : nat) :
  1 <= cur -> 1 < f -> strictly_increasing (geometric cur f n).
Proof.
  intros C F i j x y X Y L.
  destruct (geometric_nth _ _ _ _ _ X) as [_ ->].
  destruct (geometric_nth _ _ _ _ _ Y) as [_ ->].
  now apply pow_lt_mono.
Qed.

(** With [cur >= 1] and [f >= 2], [fuel] steps are enough as soon as
    [cur * 2 ^ fuel] is above the bound, and the sweep is the geometric
    progression up to the bound. *)
Lemma sweep_from_geometric (f stop : Z) (fuel : nat) :
  1 < f ->
  forall cur,
    1 <= cur -> stop < cur * 2 ^ Z.of_nat fuel ->
    exists n,
      sweep_from fuel (fun x => x * f) cur stop = Some (geometric cur f n)
      /\ stop < cur * f ^ Z.of_nat n
      /\ (forall i, (i < n)%nat -> cur * f ^ Z.of_nat i <= stop).
Proof.
  intros F. induction fuel as [|fuel IH]; intros cur C B.
  - exists O. simpl in *.
    replace (cur <=? stop)%Z with false by (symmetry; apply Z.leb_gt; lia).
    repeat split; [lia|]. intros i L. lia.
  - simpl sweep_from. destruct (cur <=? stop)%Z eqn:E.
    + apply Z.leb_le in E.
      assert (P : 0 < 2 ^ Z.of_nat fuel) by (apply Z.pow_pos_nonneg; lia).
      destruct (IH (cur * f)) as (n & S1 & S2 & S3); [nia| |].
      { rewrite Nat2Z.inj_succ, Z.pow_succ_r in B by lia. nia. }
      exists (S n). rewrite S1, geometric_S. simpl option_map.
      repeat split.
      * rewrite Nat2Z.inj_succ, Z.pow_succ_r by lia.
        now rewrite Z.mul_assoc.
      * intros [|i] L; [simpl; lia|].
        rewrite Nat2Z.inj_succ, Z.pow_succ_r by lia.
        rewrite Z.mul_assoc. apply S3. lia.
    + apply Z.leb_gt in E. exists O. repeat split; [simpl; lia|].
      intros i L. lia.
Qed.

Lemma sweep_steps_enough (spec : StepSpec) (f : Z) :
  valid_multiplicative spec f ->
  stop spec < start spec * 2 ^ Z.of_nat (sweep_steps spec).
Proof.
  intros (S1 & Ff & _). unfold sweep_steps. rewrite Ff.
  rewrite Nat2Z.inj_succ, Z2Nat.id by apply Z.log2_nonneg.
  destruct (Z.lt_ge_cases 0 (stop spec)) as [P|N].
  - destruct (Z.log2_spec (stop spec) P) as [_ U].
    assert (0 < 2 ^ Z.succ (Z.log2 (stop spec)))
      by (apply Z.pow_pos_nonneg; [lia|pose proof (Z.log2_nonneg (stop spec)); lia]).
    nia.
  - assert (0 < 2 ^ Z.succ (Z.log2 (stop spec)))
      by (apply Z.pow_pos_nonneg; [lia|pose proof (Z.log2_nonneg (stop spec)); lia]).
    nia.
Qed.

(** C5 (amended).  For a multiplicative [StepSpec] with [start >= 1],
    [factor > 1] and [start <= stop], the sweep returns a sequence of sizes
    that is strictly increasing, begins with [start], and ends with the
    largest [start * factor ^ k] that is [<= stop]; when [start = stop] it
    is the single size [start].  More steps than [sweep_steps] allows give
    the same sequence. *)
Theorem SweepGenerator_multiplicative (spec : StepSpec) (f : Z) :
  valid_multiplicative spec f -> 1 < f -> start spec <= stop spec ->
  exists sizes k,
    SweepGenerator spec = Sizes sizes
    /\ (forall fuel, (sweep_steps spec <= fuel)%nat ->
                     SweepGenerator_fuel fuel spec = Sizes sizes)
    /\ strictly_increasing sizes
    /\ hd_error sizes = Some (start spec)
    /\ last sizes 0 = start spec * f ^ Z.of_nat k
    /\ start spec * f ^ Z.of_nat k <= stop spec
    /\ (forall j : nat, start spec * f ^ Z.of_nat j <= stop spec ->
                        start spec * f ^ Z.of_nat j <= start spec * f ^ Z.of_nat k)
    /\ (start spec = stop spec -> sizes = [start spec]).
Proof.
  intros V F R. pose proof V as (S1 & Ff & Fs).
  destruct (sweep_from_geometric f (stop spec) (sweep_steps spec) F
              (start spec) S1 (sweep_steps_enough spec f V))
    as (n & G & Above & Below).
  destruct n as [|k]; [simpl in Above; lia|].
  assert (Run : forall fuel, (sweep_steps spec <= fuel)%nat ->
                  SweepGenerator_fuel fuel spec
                  = Sizes (geometric (start spec) f (S k))).
  { intros fuel L. unfold SweepGenerator_fuel. rewrite Ff, Fs.
    replace (f <=? 1)%Z with false by (symmetry; apply Z.leb_gt; lia).
    now rewrite (sweep_from_more_fuel _ _ _ _ _ _ G L). }
  exists (geometric (start spec) f (S k)), k.
  split; [apply Run; lia|]. split; [exact Run|].
  split; [now apply geometric_increasing|].
  split; [now rewrite geometric_S|].
  split; [apply geometric_last|].
  split; [apply Below; lia|].
  split.
  - intros j J. destruct (Nat.le_gt_cases j k) as [L|L].
    + destruct (Nat.eq_dec j k) as [->|N]; [lia|].
      apply Z.lt_le_incl, pow_lt_mono; lia.
    + assert (start spec * f ^ Z.of_nat (S k) <= start spec * f ^ Z.of_nat j).
      { destruct (Nat.eq_dec (S k) j) as [<-|N]; [lia|].
        apply Z.lt_le_incl, pow_lt_mono; lia. }
      lia.
  - intros E. destruct k as [|k]; [rewrite geometric_S; reflexivity|].
    pose proof (Below 1%nat ltac:(lia)) as B1.
    change (Z.of_nat 1) with 1 in B1. rewrite Z.pow_1_r in B1. nia.
Qed.

(** The sweep of the usage text: 1024, 2048, ..., 2147483648. *)
Lemma SweepGenerator_multiplicative_witness :
  valid_multiplicative usage_spec 2
  /\ exists sizes k,
       SweepGenerator usage_spec = Sizes sizes
       /\ strictly_increasing sizes
       /\ hd_error sizes = Some 1024
       /\ last sizes 0 = 1024 * 2 ^ Z.of_nat k
       /\ 1024 * 2 ^ Z.of_nat k <= 2147483648.
Proof.
  assert (V : valid_multiplicative usage_spec 2)
    by (repeat split; simpl; lia).
  split; [exact V|].
  destruct (SweepGenerator_multiplicative usage_spec 2 V)
    as (sizes & k & A & _ & B & C & D & E & _);
    [lia|simpl; lia|].
  exists sizes, k. repeat split; assumption.
Defined.

(** C5, as stated, fails on a range that is empty: with [start = 5],
    [stop = 3] and [factor = 2] the spec meets the stated invariant, the
    sweep has no size at all, and so no first size equal to [start]. *)
Lemma SweepGenerator_empty_range :
  valid_multiplicative empty_range_spec 2
  /\ 1 < 2
  /\ SweepGenerator empty_range_spec = Sizes []
  /\ ~ (exists sizes,
          SweepGenerator empty_range_spec = Sizes sizes
          /\ hd_error sizes = Some (start empty_range_spec)).
Proof.
  split; [repeat split; simpl; lia|]. split; [lia|].
  split; [reflexivity|].
  intros (sizes & E & Hd). vm_compute in E. injection E as <-.
  discriminate.
Qed.

(** The driver itself does not look at the numbers of a step spec: the
    parser returns the non-advancing spec as it is written. *)
Lemma ParseStepSpec_accepts_non_advancing :
  @ParseStepSpec Sample "start=1,stop=8,factor=1" = Ok stuck_spec
  /\ @ParseStepSpec Sample "start=1,stop=8,step=0"
     = Ok {| start := 1; stop := 8; factor := None; step := Some 0 |}.
Proof. split; reflexivity. Qed.

(** ** [main]: from the flags to the configuration *)

Lemma Flags_Parse_keeps {A : Type} (field : MainVars -> A)
  (supplies : FlagArg -> bool) :
  (forall vars arg, supplies arg = false ->
                    field (set_flag vars arg) = field vars) ->
  forall args vars,
    existsb supplies args = false ->
    field (Flags_Parse args vars) = field vars.
Proof.
  intros K. unfold Flags_Parse.
  induction args as [|arg args IH]; intros vars E; simpl in *; [reflexivity|].
  apply orb_false_iff in E. destruct E as [E1 E2].
  rewrite (IH _ E2). now apply K.
Qed.

Lemma Flags_Parse_defaults (args : list FlagArg) :
  let vars := Flags_Parse args main_vars0 in
  (existsb supplies_num_nodes args = false -> num_nodes vars = 1)
  /\ (existsb supplies_task_id args = false -> task_id vars = 0)
  /\ (existsb supplies_coordinator_address args = false ->
      coordinator_address vars = "127.0.0.1:1234")
  /\ (existsb supplies_output args = false -> output vars = kStdout).
Proof.
  simpl. repeat split; intros E.
  - rewrite (Flags_Parse_keeps num_nodes supplies_num_nodes); trivial.
    intros vars []; simpl; congruence.
  - rewrite (Flags_Parse_keeps task_id supplies_task_id); trivial.
    intros vars []; simpl; congruence.
  - rewrite (Flags_Parse_keeps coordinator_address
               supplies_coordinator_address); trivial.
    intros vars []; simpl; congruence.
  - rewrite (Flags_Parse_keeps output supplies_output); trivial.
    intros vars []; simpl; congruence.
Qed.

(** What a configuration that [main] has built is made of. *)
Lemma main_build_config_Ok `{External} (vars : MainVars) (cfg : Config) :
  main_build_config vars = Ok cfg ->
  cfg_coordinator_address cfg = coordinator_address vars
  /\ cfg_num_nodes cfg = num_nodes vars
  /\ cfg_task_id cfg = task_id vars
  /\ ParseCollectives (collectives_unparsed vars)
     = Ok (cfg_collective_types cfg)
  /\ ParseStepSpec (tensor_size_bytes_spec_unparsed vars)
     = Ok (cfg_tensor_size_bytes_spec cfg)
  /\ GetCollectiveDeviceLists (collective_devices_spec_unparsed vars)
     = Ok (cfg_replica_groups_list cfg)
  /\ cfg_output cfg = output vars.
Proof.
  unfold main_build_config.
  destruct (ParseCollectives _) as [types|]; [|discriminate].
  destruct (ParseStepSpec _) as [spec|]; [|discriminate].
  destruct (GetCollectiveDeviceLists _) as [lists|]; [|discriminate].
  simpl. intros E. injection E as <-. simpl. repeat split.
Qed.

(** C7 (amended).  [main] copies [num_nodes] and [task_id] from the flag
    variables into the configuration without checking them: the
    configuration it builds has [0 <= task_id < num_nodes] exactly when the
    values on the command line have, and always when neither option is
    supplied. *)
Theorem main_config_task_id_copied `{External}
  (args : list FlagArg) (cfg : Config) :
  main_config args = Ok cfg ->
  let vars := Flags_Parse args main_vars0 in
  cfg_num_nodes cfg = num_nodes vars
  /\ cfg_task_id cfg = task_id vars
  /\ (0 <= cfg_task_id cfg < cfg_num_nodes cfg <->
      0 <= task_id vars < num_nodes vars)
  /\ (existsb supplies_num_nodes args = false ->
      existsb supplies_task_id args = false ->
      0 <= cfg_task_id cfg < cfg_num_nodes cfg).
Proof.
  intros M vars.
  destruct (main_build_config_Ok _ _ M) as (_ & N & T & _).
  fold vars in N, T. rewrite N, T.
  split; [reflexivity|]. split; [reflexivity|]. split; [reflexivity|].
  intros SN ST.
  destruct (Flags_Parse_defaults args) as (DN & DT & _).
  unfold vars. rewrite (DN SN), (DT ST). lia.
Qed.

Lemma main_config_task_id_copied_witness :
  exists cfg,
    @main_config Sample minimal_args = Ok cfg
    /\ 0 <= @cfg_task_id Sample cfg < @cfg_num_nodes Sample cfg.
Proof.
  eexists. split; [reflexivity|].
  refine (proj2 (proj2 (proj2
    (@main_config_task_id_copied Sample minimal_args _ eq_refl))) _ _);
    reflexivity.
Defined.

(** C7, as stated, fails: with [--num_nodes=1 --task_id=5] and the other
    options well formed, [main] builds a configuration whose [task_id] is
    not below [num_nodes]. *)
Lemma main_config_task_id_out_of_range :
  exists cfg,
    @main_config Sample out_of_range_args = Ok cfg
    /\ @cfg_task_id Sample cfg = 5
    /\ @cfg_num_nodes Sample cfg = 1
    /\ ~ (0 <= @cfg_task_id Sample cfg < @cfg_num_nodes Sample cfg).
Proof.
  eexists. split; [reflexivity|]. simpl. repeat split. lia.
Qed.

(** C9.  An option that the command line does not supply keeps the initial
    value of its variable, and that value goes into the configuration:
    [num_nodes] is 1, [task_id] is 0, [coordinator_address] is
    "127.0.0.1:1234" and [output] is the [kStdout] sentinel, "stdout". *)
Theorem main_config_defaults `{External}
  (args : list FlagArg) (cfg : Config) :
  main_config args = Ok cfg ->
  (existsb supplies_num_nodes args = false -> cfg_num_nodes cfg = 1)
  /\ (existsb supplies_task_id args = false -> cfg_task_id cfg = 0)
  /\ (existsb supplies_coordinator_address args = false ->
      cfg_coordinator_address cfg = "127.0.0.1:1234")
  /\ (existsb supplies_output args = false ->
      cfg_output cfg = kStdout /\ cfg_output cfg = "stdout").
Proof.
  intros M.
  destruct (main_build_config_Ok _ _ M) as (A & N & T & _ & _ & _ & O).
  destruct (Flags_Parse_defaults args) as (DN & DT & DA & DO).
  rewrite A, N, T, O.
  split; [exact DN|]. split; [exact DT|]. split; [exact DA|].
  intros SO. now rewrite (DO SO).
Qed.

Lemma main_config_defaults_witness :
  exists cfg,
    @main_config Sample minimal_args = Ok cfg
    /\ @cfg_num_nodes Sample cfg = 1
    /\ @cfg_task_id Sample cfg = 0
    /\ @cfg_coordinator_address Sample cfg = "127.0.0.1:1234"
    /\ @cfg_output Sample cfg = "stdout".
Proof.
  eexists. split; [reflexivity|].
  destruct (@main_config_defaults Sample minimal_args _ eq_refl)
    as (A & B & C & D).
  split; [exact (A eq_refl)|]. split; [exact (B eq_refl)|].
  split; [exact (C eq_refl)|]. exact (proj2 (D eq_refl)).
Defined.

(** ** Splitting and joining *)

Lemma StrSplit_app (a b : string) (delim : ascii) :
  StrSplit (a ++ String delim b) delim
  = (StrSplit a delim ++ StrSplit b delim)%list.
Proof.
  induction a as [|c a IH]; simpl.
  - now rewrite Ascii.eqb_refl.
  - destruct (Ascii.eqb c delim); rewrite IH; [reflexivity|].
    pose proof (StrSplit_nonempty a delim) as N.
    now destruct (StrSplit a delim).
Qed.

Lemma StrSplit_no_delim (s : string) (delim : ascii) :
  find_first_of s delim = None -> StrSplit s delim = [s].
Proof.
  induction s as [|c s IH]; simpl; [reflexivity|].
  destruct (Ascii.eqb c delim); [discriminate|].
  destruct (find_first_of s delim); [discriminate|].
  intros _. now rewrite IH.
Qed.

Lemma StrSplit_StrJoin (pieces : list string) (delim : ascii) :
  pieces <> [] ->
  Forall (fun piece => find_first_of piece delim = None) pieces ->
  StrSplit (StrJoin pieces delim) delim = pieces.
Proof.
  induction pieces as [|piece rest IH]; [contradiction|].
  intros _ F. inversion F as [|? ? P R]; subst.
  destruct rest as [|next rest].
  - now apply StrSplit_no_delim.
  - change (StrJoin (piece :: next :: rest) delim)
      with (piece ++ String delim (StrJoin (next :: rest) delim)).
    rewrite StrSplit_app, (StrSplit_no_delim _ _ P), IH; trivial.
    discriminate.
Qed.

Lemma app_delim_not_empty (a b : string) (c : ascii) :
  (a ++ String c b =? "") = false.
Proof. now destruct a. Qed.

(** ** More on [ParseCollectives] *)

Lemma ParseCollectives_loop_acc (tokens : list string) :
  forall types,
    fold_left ParseCollectives_step tokens types
    = (types ++ fold_left ParseCollectives_step tokens [])%list.
Proof.
  induction tokens as [|token tokens IH]; intros types; simpl.
  - now rewrite app_nil_r.
  - rewrite IH, (IH (ParseCollectives_step [] token)), app_assoc.
    f_equal. unfold ParseCollectives_step.
    destruct (token =? "ALL_REDUCE"); [reflexivity|].
    destruct (token =? "ALL_GATHER"); [reflexivity|].
    now rewrite app_nil_r.
Qed.

Lemma ParseCollectives_as_loop (unparsed : string) :
  ParseCollectives unparsed
  = nonempty_or_fatal (fold_left ParseCollectives_step (StrSplit unparsed ",") []).
Proof.
  unfold ParseCollectives.
  destruct (unparsed =? "") eqn:E; simpl.
  - apply String.eqb_eq in E. now subst unparsed.
  - now destruct (fold_left ParseCollectives_step (StrSplit unparsed ",") []).
Qed.

Lemma collected_nonempty_or_fatal (types : list CollectiveType) :
  collected (nonempty_or_fatal types) = types.
Proof. now destruct types. Qed.

Lemma ParseCollectives_loop_names_back (types : list CollectiveType) :
  fold_left ParseCollectives_step (map CollectiveType_name types) [] = types.
Proof.
  induction types as [|t types IH]; [reflexivity|].
  simpl. rewrite ParseCollectives_loop_acc, IH. now destruct t.
Qed.

Lemma CollectiveType_name_no_comma (types : list CollectiveType) :
  Forall (fun piece => find_first_of piece "," = None)
         (map CollectiveType_name types).
Proof.
  induction types as [|t types IH]; constructor; [now destruct t|exact IH].
Qed.

(** X1.  Writing a non-empty list of collective types as their names
    separated by commas and parsing that text gives the list back, with its
    order and its repetitions. *)
Theorem ParseCollectives_of_text (types : list CollectiveType) :
  types <> [] ->
  ParseCollectives (collectives_text types) = Ok types.
Proof.
  intros N. rewrite ParseCollectives_as_loop. unfold collectives_text.
  rewrite StrSplit_StrJoin.
  - rewrite ParseCollectives_loop_names_back. now destruct types.
  - now destruct types.
  - apply CollectiveType_name_no_comma.
Qed.

Lemma ParseCollectives_of_text_witness :
  ParseCollectives "ALL_GATHER,ALL_REDUCE,ALL_GATHER"
  = Ok [ALL_GATHER; ALL_REDUCE; ALL_GATHER].
Proof.
  apply (ParseCollectives_of_text [ALL_GATHER; ALL_REDUCE; ALL_GATHER]).
  discriminate.
Defined.

(** X2.  Parsing two texts put together with a comma collects what parsing
    the first collects followed by what parsing the second collects, and
    aborts only when neither collects anything. *)
Theorem ParseCollectives_concat (a b : string) :
  ParseCollectives (a ++ "," ++ b)
  = nonempty_or_fatal
      (collected (ParseCollectives a) ++ collected (ParseCollectives b))%list.
Proof.
  rewrite !ParseCollectives_as_loop, !collected_nonempty_or_fatal.
  change (a ++ "," ++ b) with (a ++ String "," b).
  now rewrite StrSplit_app, fold_left_app, ParseCollectives_loop_acc.
Qed.

(** X3.  Empty pieces do no harm to [ParseCollectives]: a comma added at
    the end or at the beginning of the text changes nothing, whether the
    text parses or aborts. *)
Theorem ParseCollectives_extra_comma (unparsed : string) :
  ParseCollectives (unparsed ++ ",") = ParseCollectives unparsed
  /\ ParseCollectives ("," ++ unparsed) = ParseCollectives unparsed.
Proof.
  rewrite !ParseCollectives_as_loop. split.
  - change (unparsed ++ ",") with (unparsed ++ String "," "").
    rewrite StrSplit_app, fold_left_app. reflexivity.
  - reflexivity.
Qed.

(** ** More on [ParseStepSpec] *)

Lemma ParseStepSpec_token_Fatal_any `{External}
  (spec spec' : StepSpec) (token : string) :
  ParseStepSpec_token spec token = Fatal ->
  ParseStepSpec_token spec' token = Fatal.
Proof.
  unfold ParseStepSpec_token.
  destruct (ExtractKV token kElemDelim) as [[key value]|]; simpl; trivial.
  unfold CHECK_SimpleAtoi.
  destruct (key =? "start"); [destruct (SimpleAtoi value); simpl; congruence|].
  destruct (key =? "stop"); [destruct (SimpleAtoi value); simpl; congruence|].
  destruct (key =? "factor"); [destruct (SimpleAtoi value); simpl; congruence|].
  destruct (key =? "step"); [destruct (SimpleAtoi value); simpl; congruence|].
  trivial.
Qed.

Lemma ParseStepSpec_loop_Fatal_any `{External} (tokens : list string) :
  forall spec spec',
    ParseStepSpec_loop tokens spec = Fatal ->
    ParseStepSpec_loop tokens spec' = Fatal.
Proof.
  induction tokens as [|token tokens IH]; intros spec spec'; simpl;
    [discriminate|].
  destruct (ParseStepSpec_token spec token) as [s1|] eqn:T; simpl.
  - destruct (ParseStepSpec_token spec' token) as [s1'|]; simpl; trivial.
    apply IH.
  - intros _.
    now rewrite (ParseStepSpec_token_Fatal_any spec spec' token T).
Qed.

Lemma ParseStepSpec_loop_app `{External} (tokens tokens' : list string) :
  forall spec,
    ParseStepSpec_loop (tokens ++ tokens')%list spec
    = (spec' <- ParseStepSpec_loop tokens spec ;;
       ParseStepSpec_loop tokens' spec').
Proof.
  induction tokens as [|token tokens IH]; intros spec; simpl; [reflexivity|].
  destruct (ParseStepSpec_token spec token); simpl; [apply IH|reflexivity].
Qed.

Lemma ParseStepSpec_concat_Fatal `{External} (a b : string) :
  ParseStepSpec (a ++ String "," b) = Fatal <->
  ParseStepSpec a = Fatal \/ ParseStepSpec b = Fatal.
Proof.
  unfold ParseStepSpec. rewrite StrSplit_app, ParseStepSpec_loop_app.
  destruct (ParseStepSpec_loop (StrSplit a ",") StepSpec_default)
    as [spec|]; simpl.
  - split.
    + intros F. right. exact (ParseStepSpec_loop_Fatal_any _ _ _ F).
    + intros [F|F]; [discriminate|].
      exact (ParseStepSpec_loop_Fatal_any _ _ _ F).
  - split; [now left|reflexivity].
Qed.

Lemma ParseStepSpec_empty `{External} : ParseStepSpec "" = Fatal.
Proof. reflexivity. Qed.

(** X4.  A step spec made of two specs put together with a comma aborts
    exactly when one of the two aborts on its own: whether a token is
    accepted does not depend on the tokens around it. *)
Theorem ParseStepSpec_concat `{External} (a b : string) :
  ParseStepSpec (a ++ "," ++ b) = Fatal <->
  ParseStepSpec a = Fatal \/ ParseStepSpec b = Fatal.
Proof. apply ParseStepSpec_concat_Fatal. Qed.

(** X5.  An empty piece is fatal to [ParseStepSpec]: the empty text, a text
    that ends or begins with a comma, and a text with two commas in a row
    all abort. *)
Theorem ParseStepSpec_empty_piece `{External} (a b : string) :
  ParseStepSpec "" = Fatal
  /\ ParseStepSpec (a ++ ",") = Fatal
  /\ ParseStepSpec ("," ++ b) = Fatal
  /\ ParseStepSpec (a ++ ",," ++ b) = Fatal.
Proof.
  split; [reflexivity|]. split; [|split].
  - apply (ParseStepSpec_concat_Fatal a ""). now right.
  - apply (ParseStepSpec_concat_Fatal "" b). now left.
  - apply (ParseStepSpec_concat_Fatal a ("," ++ b)). right.
    apply (ParseStepSpec_concat_Fatal "" b). now left.
Qed.

(** What one round of the loop does to the four fields. *)
Lemma ParseStepSpec_token_fields `{External}
  (spec spec' : StepSpec) (token : string) :
  ParseStepSpec_token spec token = Ok spec' ->
  match token_assigns "start" token with
  | Some v => SimpleAtoi v = Some (start spec')
  | None => start spec' = start spec
  end
  /\ match token_assigns "stop" token with
     | Some v => SimpleAtoi v = Some (stop spec')
     | None => stop spec' = stop spec
     end
  /\ match token_assigns "factor" token with
     | Some v => exists n, SimpleAtoi v = Some n /\ factor spec' = Some n
     | None => factor spec' = factor spec
     end
  /\ match token_assigns "step" token with
     | Some v => exists n, SimpleAtoi v = Some n /\ step spec' = Some n
     | None => step spec' = step spec
     end.
Proof.
  unfold ParseStepSpec_token, token_assigns, CHECK_SimpleAtoi.
  destruct (ExtractKV token kElemDelim) as [[key value]|]; simpl;
    [|discriminate].
  destruct (key =? "start") eqn:E1.
  { apply String.eqb_eq in E1. subst key. simpl.
    destruct (SimpleAtoi value) as [n|]; simpl; [|discriminate].
    intros E. injection E as <-. simpl. repeat split. }
  destruct (key =? "stop") eqn:E2.
  { apply String.eqb_eq in E2. subst key. simpl.
    destruct (SimpleAtoi value) as [n|]; simpl; [|discriminate].
    intros E. injection E as <-. simpl. repeat split. }
  destruct (key =? "factor") eqn:E3.
  { apply String.eqb_eq in E3. subst key. simpl.
    destruct (SimpleAtoi value) as [n|]; simpl; [|discriminate].
    intros E. injection E as <-. simpl. repeat split. now exists n. }
  destruct (key =? "step") eqn:E4.
  { apply String.eqb_eq in E4. subst key. simpl.
    destruct (SimpleAtoi value) as [n|]; simpl; [|discriminate].
    intros E. injection E as <-. simpl. repeat split. now exists n. }
  discriminate.
Qed.

Lemma ParseStepSpec_loop_fields `{External} (tokens : list string) :
  forall spec spec',
    ParseStepSpec_loop tokens spec = Ok spec' ->
    match last_value "start" tokens with
    | Some v => SimpleAtoi v = Some (start spec')
    | None => start spec' = start spec
    end
    /\ match last_value "stop" tokens with
       | Some v => SimpleAtoi v = Some (stop spec')
       | None => stop spec' = stop spec
       end
    /\ match last_value "factor" tokens with
       | Some v => exists n, SimpleAtoi v = Some n /\ factor spec' = Some n
       | None => factor spec' = factor spec
       end
    /\ match last_value "step" tokens with
       | Some v => exists n, SimpleAtoi v = Some n /\ step spec' = Some n
       | None => step spec' = step spec
       end.
Proof.
  induction tokens as [|token tokens IH]; intros spec spec' L.
  - simpl in *. injection L as <-. repeat split.
  - cbn [ParseStepSpec_loop] in L.
    destruct (ParseStepSpec_token spec token) as [s1|] eqn:T;
      [|discriminate].
    simpl in L.
    destruct (IH _ _ L) as (A & B & C & D).
    destruct (ParseStepSpec_token_fields _ _ _ T) as (A1 & B1 & C1 & D1).
    cbn [last_value].
    split; [|split; [|split]].
    + destruct (last_value "start" tokens); [exact A|].
      destruct (token_assigns "start" token); congruence.
    + destruct (last_value "stop" tokens); [exact B|].
      destruct (token_assigns "stop" token); congruence.
    + destruct (last_value "factor" tokens); [exact C|].
      destruct (token_assigns "factor" token) as [v|]; [|congruence].
      destruct C1 as (n & S1 & S2). exists n. split; congruence.
    + destruct (last_value "step" tokens); [exact D|].
      destruct (token_assigns "step" token) as [v|]; [|congruence].
      destruct D1 as (n & S1 & S2). exists n. split; congruence.
Qed.

(** X6.  In the [StepSpec] that [ParseStepSpec] returns, each field holds
    the integer of the last token that names it, and a field that no token
    names keeps the value of the default-constructed [StepSpec]. *)
Theorem ParseStepSpec_last_assignment `{External}
  (unparsed : string) (spec : StepSpec) :
  ParseStepSpec unparsed = Ok spec ->
  match last_value "start" (StrSplit unparsed ",") with
  | Some v => SimpleAtoi v = Some (start spec)
  | None => start spec = start StepSpec_default
  end
  /\ match last_value "stop" (StrSplit unparsed ",") with
     | Some v => SimpleAtoi v = Some (stop spec)
     | None => stop spec = stop StepSpec_default
     end
  /\ match last_value "factor" (StrSplit unparsed ",") with
     | Some v => exists n, SimpleAtoi v = Some n /\ factor spec = Some n
     | None => factor spec = factor StepSpec_default
     end
  /\ match last_value "step" (StrSplit unparsed ",") with
     | Some v => exists n, SimpleAtoi v = Some n /\ step spec = Some n
     | None => step spec = step StepSpec_default
     end.
Proof. apply ParseStepSpec_loop_fields. Qed.

(** A spec that names [start] twice and [stop] not at all. *)
Lemma ParseStepSpec_last_assignment_witness :
  exists spec,
    @ParseStepSpec Sample "start=1,factor=2,start=4" = Ok spec
    /\ SimpleAtoi_int64 "4" = Some (start spec)
    /\ stop spec = 0.
Proof.
  eexists. split; [reflexivity|].
  destruct (@ParseStepSpec_last_assignment Sample
              "start=1,factor=2,start=4" _ eq_refl) as (A & B & _).
  split; [exact A|exact B].
Defined.

(** ** More on [GetCollectiveDeviceLists] *)

Lemma GetCollectiveDeviceLists_loop_acc `{External} (tokens : list string) :
  forall device_lists,
    GetCollectiveDeviceLists_loop tokens device_lists
    = (added <- GetCollectiveDeviceLists_loop tokens [] ;;
       Ok (device_lists ++ added)%list).
Proof.
  induction tokens as [|token tokens IH]; intros device_lists; simpl.
  - now rewrite app_nil_r.
  - destruct (GetCollectiveDeviceList token) as [iota|]; simpl;
      [|reflexivity].
    rewrite IH, (IH [iota]).
    destruct (GetCollectiveDeviceLists_loop tokens []); simpl;
      [|reflexivity].
    now rewrite <- app_assoc.
Qed.

Lemma GetCollectiveDeviceLists_loop_app `{External}
  (tokens tokens' : list string) :
  forall device_lists,
    GetCollectiveDeviceLists_loop (tokens ++ tokens')%list device_lists
    = (lists <- GetCollectiveDeviceLists_loop tokens device_lists ;;
       GetCollectiveDeviceLists_loop tokens' lists).
Proof.
  induction tokens as [|token tokens IH]; intros device_lists; simpl;
    [reflexivity|].
  destruct (GetCollectiveDeviceList token); simpl; [apply IH|reflexivity].
Qed.

(** The final check never fires: the loop has run on at least one piece. *)
Lemma GetCollectiveDeviceLists_as_loop `{External} (unparsed : string) :
  GetCollectiveDeviceLists unparsed
  = GetCollectiveDeviceLists_loop (StrSplit unparsed ";") [].
Proof.
  unfold GetCollectiveDeviceLists.
  pose proof (StrSplit_nonempty unparsed ";") as N.
  destruct (StrSplit unparsed ";") as [|token tokens]; [contradiction|].
  simpl. destruct (GetCollectiveDeviceList token) as [iota|]; simpl;
    [|reflexivity].
  rewrite GetCollectiveDeviceLists_loop_acc.
  destruct (GetCollectiveDeviceLists_loop tokens []); reflexivity.
Qed.

(** X7.  The device lists of two specs put together with a semicolon are
    the device lists of the first followed by those of the second, and the
    whole aborts as soon as one of the two aborts. *)
Theorem GetCollectiveDeviceLists_concat `{External} (a b : string) :
  GetCollectiveDeviceLists (a ++ ";" ++ b)
  = (lists_a <- GetCollectiveDeviceLists a ;;
     lists_b <- GetCollectiveDeviceLists b ;;
     Ok (lists_a ++ lists_b)%list).
Proof.
  rewrite !GetCollectiveDeviceLists_as_loop.
  change (a ++ ";" ++ b) with (a ++ String ";" b).
  rewrite StrSplit_app, GetCollectiveDeviceLists_loop_app.
  destruct (GetCollectiveDeviceLists_loop (StrSplit a ";") []); simpl;
    [|reflexivity].
  apply GetCollectiveDeviceLists_loop_acc.
Qed.

(** ** More on [main] *)

(** X8.  [--collectives] and [--tensor_size_bytes_spec] are required: on a
    command line that leaves one of them out, [main] aborts before a
    configuration is built. *)
Theorem main_config_required_options `{External} (args : list FlagArg) :
  existsb supplies_collectives args = false
  \/ existsb supplies_tensor_size_bytes_spec args = false ->
  main_config args = Fatal.
Proof.
  unfold main_config, main_build_config. intros [E|E].
  - rewrite (Flags_Parse_keeps collectives_unparsed supplies_collectives);
      trivial.
    intros vars []; simpl; congruence.
  - rewrite (Flags_Parse_keeps tensor_size_bytes_spec_unparsed
               supplies_tensor_size_bytes_spec); trivial.
    + destruct (ParseCollectives _); reflexivity.
    + intros vars []; simpl; congruence.
Qed.

Lemma main_config_required_options_witness :
  @main_config Sample no_spec_args = Fatal.
Proof.
  apply (@main_config_required_options Sample no_spec_args).
  right. reflexivity.
Defined.

Lemma Flags_Parse_text_args (args : list FlagArg) (a o : string) :
  let vars := Flags_Parse args main_vars0 in
  Flags_Parse (args ++ text_args a o)%list main_vars0
  = {| num_nodes := num_nodes vars;
       task_id := task_id vars;
       collectives_unparsed := collectives_unparsed vars;
       tensor_size_bytes_spec_unparsed := tensor_size_bytes_spec_unparsed vars;
       collective_devices_spec_unparsed := collective_devices_spec_unparsed vars;
       coordinator_address := a;
       output := o |}.
Proof.
  unfold Flags_Parse. now rewrite fold_left_app.
Qed.

(** X9.  [main] takes [coordinator_address] and [output] as they come:
    whatever texts are given for them after a command line on which the
    configuration builds, the configuration still builds, with these texts
    in it and every other field unchanged. *)
Theorem main_config_texts_unchecked `{External}
  (args : list FlagArg) (cfg : Config) (a o : string) :
  main_config args = Ok cfg ->
  main_config (args ++ text_args a o)%list
  = Ok {| cfg_coordinator_address := a;
          cfg_num_nodes := cfg_num_nodes cfg;
          cfg_task_id := cfg_task_id cfg;
          cfg_collective_types := cfg_collective_types cfg;
          cfg_tensor_size_bytes_spec := cfg_tensor_size_bytes_spec cfg;
          cfg_replica_groups_list := cfg_replica_groups_list cfg;
          cfg_output := o |}.
Proof.
  intros M.
  destruct (main_build_config_Ok _ _ M) as (_ & N & T & C & S & G & _).
  unfold main_config. rewrite Flags_Parse_text_args.
  unfold main_build_config. simpl. now rewrite C, S, G, N, T.
Qed.

(** An address that is no address and an output that is neither the
    sentinel nor a table file. *)
Lemma main_config_texts_unchecked_witness :
  exists cfg,
    @main_config Sample (minimal_args ++ text_args "nowhere" "out.txt")%list
    = Ok cfg
    /\ @cfg_coordinator_address Sample cfg = "nowhere"
    /\ @cfg_output Sample cfg = "out.txt".
Proof.
  eexists. split.
  - apply (@main_config_texts_unchecked Sample minimal_args _
             "nowhere" "out.txt" eq_refl).
  - split; reflexivity.
Defined.

(** X10.  A device spec without a semicolon is read as one segment: the
    result is the single list that segment reads as, and the call aborts
    when the segment is rejected. *)
Theorem GetCollectiveDeviceLists_single `{External} (unparsed : string) :
  find_first_of unparsed ";" = None ->
  GetCollectiveDeviceLists unparsed
  = (iota <- GetCollectiveDeviceList unparsed ;; Ok [iota]).
Proof.
  intros N. rewrite GetCollectiveDeviceLists_as_loop.
  rewrite (StrSplit_no_delim _ _ N). simpl.
  now destruct (GetCollectiveDeviceList unparsed).
Qed.

Lemma GetCollectiveDeviceLists_single_witness :
  @GetCollectiveDeviceLists Sample "[2,4]<=[4]" = Ok [iota_2_4]
  /\ @GetCollectiveDeviceLists Sample "{{0,1},{2,3}}" = Fatal.
Proof.
  split.
  - apply (@GetCollectiveDeviceLists_single Sample "[2,4]<=[4]" eq_refl).
  - apply (@GetCollectiveDeviceLists_single Sample "{{0,1},{2,3}}" eq_refl).
Defined.


(** ** [main] and the numbers of a step spec *)






